(** * protoc-gen-route: the route model and its renderer

    A shallow embedding of [generate/template/template.go]: the model
    records [ServiceDesc], [MethodDesc] and [PackageDesc], the method
    [ServiceDesc.Execute] and the function [ReplaceTemplateIfNeed].

    Go pointers are addresses into an explicit heap, Go maps are finite
    maps ([gmap]), the package-level variable [routeTemplate] is passed
    explicitly, and the two external collaborators of the file (the
    [text/template] engine and [os.ReadFile]) are section variables. *)

From Stdlib Require Import ZArith.
From stdpp Require Import gmap strings list fin_maps.

Local Open Scope string_scope.
Local Open Scope nat_scope.
Local Open Scope list_scope.

Module Template.

(** ** Pointers and the heap *)

Definition loc := positive.

(** A Go pointer: [nil] or the address of an allocated object. *)
Inductive ptr : Type :=
  | nil
  | ref (l : loc).

#[global] Instance ptr_eq_dec : EqDecision ptr.
Proof. solve_decision. Defined.

(** ** The model (the three structs of the file) *)

Record MethodDesc : Type := {
  Name : string;
  OriginalName : string;
  Num : Z;
  Request : string;
  Reply : string;
  Comment : string;
  Extra : gmap string string
}.

Record PackageDesc : Type := {
  RequestType : string;
  ResponseType : string;
  ExtraDataType : string;
  NewExtraDataFunc : string
}.

(** [Methods] is a slice of pointers; [MethodSets] is a map, [None]
    being the nil map; [Package] is a pointer to a shared object. *)
Record ServiceDesc : Type := {
  OptionsKey : string;
  ServiceType : string;
  ServiceName : string;
  Methods : list ptr;
  MethodSets : option (gmap string ptr);
  Package : ptr
}.

(** The objects the pointers of a [ServiceDesc] lead to. *)
Record heap : Type := {
  method_objs : gmap loc MethodDesc;
  package_objs : gmap loc PackageDesc
}.

(** [*m] for [m : *MethodDesc]; [None] is the nil-pointer panic. *)
Definition deref (h : heap) (m : ptr) : option MethodDesc :=
  match m with
  | nil => None
  | ref l => method_objs h !! l
  end.

(** [s.MethodSets = v] *)
Definition set_MethodSets (v : option (gmap string ptr)) (s : ServiceDesc)
  : ServiceDesc :=
  {| OptionsKey := OptionsKey s;
     ServiceType := ServiceType s;
     ServiceName := ServiceName s;
     Methods := Methods s;
     MethodSets := v;
     Package := Package s |}.

(** ** The loop of [Execute]

    [for _, m := range s.Methods { s.MethodSets[m.Name] = m }], run on
    the map [acc] that [s.MethodSets] holds when the loop is entered.
    Reading [m.Name] through a nil pointer panics; the map then stays
    as the earlier iterations left it. *)
Inductive loop_result : Type :=
  | Completed (idx : gmap string ptr)
  | NilDeref (partial : gmap string ptr).

Fixpoint range_Methods (h : heap) (ms : list ptr) (acc : gmap string ptr)
  : loop_result :=
  match ms with
  | [] => Completed acc
  | m :: rest =>
      match deref h m with
      | None => NilDeref acc
      | Some d => range_Methods h rest (<[Name d := m]> acc)
      end
  end.

(** What a call of [Execute] leaves behind: the receiver as mutated,
    and the returned pair unless the call panicked. *)
Inductive outcome {error : Type} : Type :=
  | Panicked (s : ServiceDesc)
  | Returned (s : ServiceDesc) (text : string) (err : option error).
Arguments outcome : clear implicits.

Section Render.

(** The [text/template] engine, a black box: [template_Parse] is
    [template.New("route").Parse], [template_Execute tmpl h s] is
    [tmpl.Execute(&buf, s)] and yields what was written to [buf]
    together with the error ([None] is the nil error). The engine
    reads the model and its heap and writes to neither, and as a
    function it always yields a result: a body that calls the method
    [Execute] of the data it is given, which would re-enter the call
    without end, is outside what a function can stand for (see
    [Execute_run] below). *)
Context {Tmpl error : Type}.
Variable template_Parse : string → Tmpl + error.
Variable template_Execute : Tmpl → heap → ServiceDesc → string * option error.

(** [os.ReadFile], with the bytes read taken as a string. *)
Variable os_ReadFile : string → string + error.

(** [func (s *ServiceDesc) Execute() (string, error)], for a non-nil
    receiver; [routeTemplate] is the package-level template body. *)
Definition Execute (routeTemplate : string) (h : heap) (s : ServiceDesc)
  : outcome error :=
  match range_Methods h (Methods s) ∅ with
  | NilDeref partial => Panicked (set_MethodSets (Some partial) s)
  | Completed idx =>
      let s := set_MethodSets (Some idx) s in
      match template_Parse routeTemplate with
      | inr err => Returned s "" (Some err)
      | inl tmpl =>
          let '(buf, err) := template_Execute tmpl h s in
          match err with
          | Some e => Returned s "" (Some e)
          | None => Returned s buf None
          end
      end
  end.

(** [func ReplaceTemplateIfNeed(path string) error]: the new value of
    [routeTemplate] and the returned error. *)
Definition ReplaceTemplateIfNeed (path : string) (routeTemplate : string)
  : string * option error :=
  if decide (path ≠ "") then
    match os_ReadFile path with
    | inr err => (routeTemplate, Some err)
    | inl raw => (raw, None)
    end
  else (routeTemplate, None).

End Render.

(** ** The engine as a relation

    [Execute] above takes the engine as a pair of functions. Here it is
    a pair of relations between what the engine is given and what it
    may yield, with nothing assumed about how many results there are:
    a rendering that does not terminate has none. [Execute_run] is the
    same method, statement by statement, over such an engine. *)
Section RenderRuns.

Context {Tmpl error : Type}.
Variable parses : string → Tmpl + error → Prop.
Variable substitutes : Tmpl → heap → ServiceDesc → string * option error → Prop.

Inductive Execute_run (routeTemplate : string) (h : heap) (s : ServiceDesc)
  : outcome error → Prop :=
  | run_nil_deref partial :
      range_Methods h (Methods s) ∅ = NilDeref partial →
      Execute_run routeTemplate h s (Panicked (set_MethodSets (Some partial) s))
  | run_parse_error idx e :
      range_Methods h (Methods s) ∅ = Completed idx →
      parses routeTemplate (inr e) →
      Execute_run routeTemplate h s
        (Returned (set_MethodSets (Some idx) s) "" (Some e))
  | run_substitute_error idx tmpl buf e :
      range_Methods h (Methods s) ∅ = Completed idx →
      parses routeTemplate (inl tmpl) →
      substitutes tmpl h (set_MethodSets (Some idx) s) (buf, Some e) →
      Execute_run routeTemplate h s
        (Returned (set_MethodSets (Some idx) s) "" (Some e))
  | run_rendered idx tmpl buf :
      range_Methods h (Methods s) ∅ = Completed idx →
      parses routeTemplate (inl tmpl) →
      substitutes tmpl h (set_MethodSets (Some idx) s) (buf, None) →
      Execute_run routeTemplate h s
        (Returned (set_MethodSets (Some idx) s) buf None).


End RenderRuns.

(** The relations of an engine given as functions. *)
Definition parses_of {Tmpl error : Type} (Parse : string → Tmpl + error)
  : string → Tmpl + error → Prop :=
  λ body r, r = Parse body.


(** ** Vocabulary of the statements *)

(** The pairs [(m.Name, m)] of the entries of a slice, in order (an
    entry that cannot be dereferenced has none). *)
Definition entries (h : heap) (ms : list ptr) : list (string * ptr) :=
  omap (λ m, (λ d, (Name d, m)) <$> deref h m) ms.

(** No entry of the slice is nil. *)
Definition no_nil (h : heap) (ms : list ptr) : Prop :=
  Forall (λ m, is_Some (deref h m)) ms.

(** [idx] indexes the slice [ms] by name: [idx[m.Name] == m] for every
    entry, and [len(idx) == len(ms)]. *)
Definition indexes (h : heap) (ms : list ptr) (idx : gmap string ptr) : Prop :=
  (∀ m d, m ∈ ms → deref h m = Some d → idx !! Name d = Some m) ∧
  size idx = length ms.

(** [MethodSets] is set and indexes [Methods]. *)
Definition methodSet_consistent (h : heap) (s : ServiceDesc) : Prop :=
  ∃ idx, MethodSets s = Some idx ∧ indexes h (Methods s) idx.

(** The receiver as a call left it. *)
Definition receiver_after {error : Type} (o : outcome error) : ServiceDesc :=
  match o with
  | Panicked s => s
  | Returned s _ _ => s
  end.

(** The pair a call returned, if it returned. *)
Definition returned {error : Type} (o : outcome error)
  : option (string * option error) :=
  match o with
  | Panicked _ => None
  | Returned _ text err => Some (text, err)
  end.

(** ** A small engine and model to run the definitions on *)
Module Sample.

(** A body parses unless it is an action left open. *)
Definition Parse (body : string) : string + string :=
  if decide (body = "{{") then inr "unclosed action" else inl body.

(** Substitution writes the body, then the service name; the body
    [{{.Missing}}] fails after some text has been written. *)
Definition Subst (tmpl : string) (h : heap) (s : ServiceDesc)
  : string * option string :=
  if decide (tmpl = "{{.Missing}}")
  then ("package ", Some "can't evaluate field Missing")
  else (tmpl +:+ ServiceName s, None).

(** A substitution with two possible results. *)
Definition Flaky (tmpl : string) (h : heap) (s : ServiceDesc)
  : string * option string → Prop :=
  λ r, r = (tmpl, None) ∨ r = (tmpl +:+ ServiceName s, None).

(** One readable file. *)
Definition ReadFile (path : string) : string + string :=
  if decide (path = "route.tmpl") then inl "custom body"
  else inr "no such file".

Definition method (name : string) (num : Z) : MethodDesc :=
  {| Name := name; OriginalName := "MenuService" +:+ name; Num := num;
     Request := name +:+ "Request"; Reply := name +:+ "Response";
     Comment := ""; Extra := ∅ |}.

Definition package : PackageDesc :=
  {| RequestType := "telegram.Update"; ResponseType := "telegram.Message";
     ExtraDataType := ""; NewExtraDataFunc := "" |}.

(** Objects 1 and 2 have distinct names, object 3 repeats the name of
    object 1. *)
Definition objs : heap :=
  {| method_objs := {[ 1%positive := method "UpdateCount" 0;
                       2%positive := method "ProcessMenu" 0;
                       3%positive := method "UpdateCount" 1 ]};
     package_objs := {[ 1%positive := package ]} |}.

Definition service (ms : list ptr) (set : option (gmap string ptr)) : ServiceDesc :=
  {| OptionsKey := "bot"; ServiceType := "MenuService";
     ServiceName := "bot.v1.MenuService"; Methods := ms;
     MethodSets := set; Package := ref 1%positive |}.

(** Two methods of distinct names, no index built yet. *)
Definition menu : ServiceDesc :=
  service [ref 1%positive; ref 2%positive] None.

(** Two methods of the same name. *)
Definition clash : ServiceDesc :=
  service [ref 1%positive; ref 3%positive] None.

(** A stale index: an entry for a name no method has. *)
Definition stale : ServiceDesc :=
  service [ref 1%positive; ref 2%positive]
          (Some {[ "Removed" := ref 3%positive ]}).

End Sample.

End Template.

(** * The model builder

    The descriptor walk that produces the [ServiceDesc] values is not
    part of [template.go]; the definitions of this module follow the
    design document (sections 3, 4 and 6). *)
Module Builder.
Import Template.

(** Modelled from the spec: the per-method annotation block of the
    descriptor set (section 6), a scalar [key] and a repeated [extra]
    of key/value pairs; the descriptor types are missing from the
    sources. *)
Record Annotation : Type := {
  key : string;
  extra : list (string * string)
}.

(** Modelled from the spec: a method definition node of the descriptor
    tree, with zero or one annotation block (sections 4.1 and 6). *)
Record MethodNode : Type := {
  method_name : string;
  input_type : string;
  output_type : string;
  leading_comment : string;
  annotation : option Annotation
}.

(** Modelled from the spec: a service of an interface-definition file,
    with its short and its package-qualified identifier (section 3). *)
Record ServiceNode : Type := {
  service_type : string;
  service_name : string;
  service_methods : list MethodNode
}.

(** Modelled from the spec: one interface-definition file (section 6). *)
Record FileNode : Type := {
  file_services : list ServiceNode
}.

(** Modelled from the spec: the Annotation Extractor (section 4.1),
    [extract(method) -> Option<(routingKey, extras)>]; an absent block
    and a block with an empty key are both "no match". *)
Definition extract (m : MethodNode) : option (string * list (string * string)) :=
  match annotation m with
  | None => None
  | Some a => if decide (key a = "") then None else Some (key a, extra a)
  end.

(** Modelled from the spec: the state of one generation pass, the
    heap the model is allocated in and the counter map of the Name
    Disambiguator (sections 4.2 and 5). *)
Record build_state : Type := {
  st_heap : heap;
  st_counters : gmap string Z
}.

(** Modelled from the spec: the builder threads its pass state through
    every step (section 9, "pass an explicit mutable counter object"). *)
Definition Build (A : Type) : Type := build_state → A * build_state.

#[global] Instance Build_ret : MRet Build := λ A (a : A) st, (a, st).
#[global] Instance Build_bind : MBind Build := λ A B (f : A → Build B) (m : Build A) st,
  let '(a, st') := m st in f a st'.

(** Modelled from the spec: the Name Disambiguator (section 4.2),
    [assign(candidateName) -> (originalName, dedupNumber)] over one
    counter map keyed by candidate name. *)
Definition assign (candidateName : string) : Build (string * Z) := λ st,
  let n := default 0%Z (st_counters st !! candidateName) in
  ((candidateName, n),
   {| st_heap := st_heap st;
      st_counters := <[candidateName := (n + 1)%Z]> (st_counters st) |}).

(** Modelled from the spec: allocation of a fresh [MethodDesc] object
    (section 3, the builder owns the construction of the graph). *)
Definition alloc (d : MethodDesc) : Build ptr := λ st,
  let l := fresh (dom (method_objs (st_heap st))) in
  (ref l,
   {| st_heap := {| method_objs := <[l := d]> (method_objs (st_heap st));
                    package_objs := package_objs (st_heap st) |};
      st_counters := st_counters st |}).

(** Modelled from the spec: the [extra] mapping of a method (section
    3); on a duplicate key the last occurrence is kept, the policy the
    design document leaves to the implementer (section 9). *)
Definition fold_extras (extras : list (string * string)) : gmap string string :=
  foldl (λ acc e, <[e.1 := e.2]> acc) ∅ extras.

(** Modelled from the spec: steps 1 to 3 of the Model Builder (section
    4.3) for one method: extract, compare with the routing key, and
    for a match name, disambiguate and construct the [MethodDesc]. *)
Definition build_method (sv : ServiceNode) (routingKey : string) (m : MethodNode)
  : Build (option ptr) :=
  match extract m with
  | None => mret None
  | Some (k, extras) =>
      if decide (k = routingKey) then
        '(orig, n) ← assign (service_type sv +:+ method_name m);
        p ← alloc {| Name := method_name m;
                     OriginalName := orig;
                     Num := n;
                     Request := input_type m;
                     Reply := output_type m;
                     Comment := leading_comment m;
                     Extra := fold_extras extras |};
        mret (Some p)
      else mret None
  end.

(** Modelled from the spec: the methods of one service in declaration
    order (section 4.3, step 1). *)
Fixpoint build_methods (sv : ServiceNode) (routingKey : string)
    (ms : list MethodNode) : Build (list ptr) :=
  match ms with
  | [] => mret []
  | m :: rest =>
      o ← build_method sv routingKey m;
      ps ← build_methods sv routingKey rest;
      mret (from_option (λ p, p :: ps) ps o)
  end.

(** Modelled from the spec: step 5 of the Model Builder, "build/refresh
    methodSet from methods before returning"; it is the loop the
    renderer runs again. *)
Definition refresh_index (ps : list ptr) : Build (gmap string ptr) := λ st,
  match range_Methods (st_heap st) ps ∅ with
  | Completed idx => (idx, st)
  | NilDeref partial => (partial, st)
  end.

(** Modelled from the spec: steps 4 to 6 of the Model Builder for one
    service: one [ServiceDesc] when a method matched, none otherwise. *)
Definition build_service (routingKey : string) (pkg : ptr) (sv : ServiceNode)
  : Build (option ServiceDesc) :=
  ps ← build_methods sv routingKey (service_methods sv);
  match ps with
  | [] => mret None
  | _ :: _ =>
      idx ← refresh_index ps;
      mret (Some {| OptionsKey := routingKey;
                    ServiceType := service_type sv;
                    ServiceName := service_name sv;
                    Methods := ps;
                    MethodSets := Some idx;
                    Package := pkg |})
  end.

(** Modelled from the spec: the services of the descriptor set in
    file order, then declaration order (section 4.3, step 1). *)
Fixpoint build_services (routingKey : string) (pkg : ptr)
    (svs : list ServiceNode) : Build (list ServiceDesc) :=
  match svs with
  | [] => mret []
  | sv :: rest =>
      o ← build_service routingKey pkg sv;
      sds ← build_services routingKey pkg rest;
      mret (from_option (λ sd, sd :: sds) sds o)
  end.

(** Modelled from the spec: every service of every file. *)
Definition all_services (descriptorSet : list FileNode) : list ServiceNode :=
  concat (file_services <$> descriptorSet).

(** Modelled from the spec: [build(descriptorSet, routingKey,
    packageConfig)] (section 4.3); [pkg] points to the shared
    [PackageDesc], constructed before any file is walked. *)
Definition build (descriptorSet : list FileNode) (routingKey : string) (pkg : ptr)
  : Build (list ServiceDesc) :=
  build_services routingKey pkg (all_services descriptorSet).

(** Modelled from the spec: the state a generation pass starts from,
    with an empty counter map (section 4.2, "reset only at the start
    of a new generation run"). *)
Definition start (h : heap) : build_state :=
  {| st_heap := h; st_counters := ∅ |}.

(** Modelled from the spec: the requests of one run to the Name
    Disambiguator, in the order they are made (section 4.2). *)
Fixpoint assign_all (candidates : list string) : Build (list (string * Z)) :=
  match candidates with
  | [] => mret []
  | c :: rest =>
      r ← assign c;
      rs ← assign_all rest;
      mret (r :: rs)
  end.

(** ** Vocabulary of the statements *)

(** The routing key the extractor finds on a method, if any. *)
Definition routing_key (m : MethodNode) : option string :=
  fst <$> extract m.

(** The method belongs to the pass for [routingKey]. *)
Definition matches (routingKey : string) (m : MethodNode) : Prop :=
  routing_key m = Some routingKey.

#[global] Instance matches_dec routingKey m : Decision (matches routingKey m).
Proof. unfold matches. apply _. Defined.

(** The extractor finds an annotation on the method: the block is
    present and its key is not empty. *)
Definition annotated (m : MethodNode) : Prop := is_Some (routing_key m).

#[global] Instance annotated_dec m : Decision (annotated m).
Proof. unfold annotated. apply _. Defined.

(** The service has a method of the pass for [routingKey]. *)
Definition has_match (routingKey : string) (sv : ServiceNode) : Prop :=
  filter (matches routingKey) (service_methods sv) ≠ [].

#[global] Instance has_match_dec routingKey sv : Decision (has_match routingKey sv).
Proof. unfold has_match. apply _. Defined.

(** The pointer [p] leads to the [MethodDesc] built from the method
    [m] of the service [sv], and [m] carries an annotation block whose
    key is [routingKey]. *)
Definition built_from (h : heap) (sv : ServiceNode) (routingKey : string)
    (p : ptr) (m : MethodNode) : Prop :=
  ∃ d a,
    deref h p = Some d ∧
    annotation m = Some a ∧ key a = routingKey ∧ key a ≠ "" ∧
    Name d = method_name m ∧
    OriginalName d = service_type sv +:+ method_name m ∧
    Request d = input_type m ∧
    Reply d = output_type m ∧
    Comment d = leading_comment m ∧
    Extra d = fold_extras (extra a).

(** [sd] is the route group of the service [sv] for [routingKey]: its
    methods are, in declaration order, those built from the matching
    methods of [sv] and from no other. *)
Definition group_of (h : heap) (routingKey : string) (pkg : ptr)
    (sd : ServiceDesc) (sv : ServiceNode) : Prop :=
  OptionsKey sd = routingKey ∧
  ServiceType sd = service_type sv ∧
  ServiceName sd = service_name sv ∧
  Package sd = pkg ∧
  Forall2 (built_from h sv routingKey) (Methods sd)
          (filter (matches routingKey) (service_methods sv)).

(** The heap [h'] holds every method object of [h], unchanged, and
    the same package objects. *)
Definition extends (h h' : heap) : Prop :=
  method_objs h ⊆ method_objs h' ∧ package_objs h' = package_objs h.

(** The service with only the methods that satisfy [P] kept. *)
Definition keep_in_service (P : MethodNode → Prop) `{!∀ m, Decision (P m)}
    (sv : ServiceNode) : ServiceNode :=
  {| service_type := service_type sv;
     service_name := service_name sv;
     service_methods := filter P (service_methods sv) |}.

(** The descriptor set with only the methods that satisfy [P] kept. *)
Definition keep_methods (P : MethodNode → Prop) `{!∀ m, Decision (P m)}
    (descriptorSet : list FileNode) : list FileNode :=
  (λ f, {| file_services := keep_in_service P <$> file_services f |})
  <$> descriptorSet.

(** ** A descriptor set to run the definitions on *)
Module Sample.

Definition rpc (name : string) (a : option Annotation) : MethodNode :=
  {| method_name := name;
     input_type := name +:+ "Request";
     output_type := name +:+ "Response";
     leading_comment := "// " +:+ name;
     annotation := a |}.

(** A bot service with an http method, an unannotated method and a
    method whose annotation has an empty key; a service for http
    only; and a service without annotations. *)
Definition descriptors : list FileNode :=
  [ {| file_services :=
         [ {| service_type := "MenuService";
              service_name := "bot.v1.MenuService";
              service_methods :=
                [ rpc "UpdateCount"
                      (Some {| key := "bot";
                               extra := [("command", "start");
                                         ("callback_query", "start")] |});
                  rpc "Health" None;
                  rpc "Export"
                      (Some {| key := "http";
                               extra := [("method", "GET")] |});
                  rpc "Draft" (Some {| key := ""; extra := [] |});
                  rpc "ProcessMenu"
                      (Some {| key := "bot";
                               extra := [("callback_query", "menu_.*")] |}) ] |};
           {| service_type := "UserService";
              service_name := "bot.v1.UserService";
              service_methods :=
                [ rpc "GetUser"
                      (Some {| key := "http";
                               extra := [("path", "/users/{id}")] |}) ] |} ] |};
    {| file_services :=
         [ {| service_type := "PlainService";
              service_name := "bot.v1.PlainService";
              service_methods := [ rpc "Ping" None ] |} ] |} ].

(** The heap a pass starts from: the shared package object only. *)
Definition objs : heap :=
  {| method_objs := ∅;
     package_objs := {[ 1%positive := Template.Sample.package ]} |}.

End Sample.

End Builder.

(** * Facts about the renderer *)

Import Template.

(** ** The index loop *)

(** One iteration of the loop body on a pair [(m.Name, m)]. *)
Lemma range_Methods_cons h m d rest acc :
  deref h m = Some d →
  range_Methods h (m :: rest) acc = range_Methods h rest (<[Name d := m]> acc).
Proof. intros Hd. simpl. by rewrite Hd. Qed.

(** Without a nil entry the loop completes, and it has inserted the
    pairs of [entries] from left to right. *)
Lemma range_Methods_no_nil h ms acc :
  no_nil h ms →
  range_Methods h ms acc
  = Completed (foldl (λ a e, <[e.1 := e.2]> a) acc (entries h ms)).
Proof.
  intros Hms. revert acc.
  induction Hms as [|m rest [d Hd] _ IH]; intros acc; [done|].
  rewrite (range_Methods_cons _ _ d) by done.
  rewrite IH. unfold entries. simpl. by rewrite Hd.
Qed.

(** With a nil entry the loop panics. *)
Lemma range_Methods_nil h ms acc :
  ¬ no_nil h ms → ∃ partial, range_Methods h ms acc = NilDeref partial.
Proof.
  revert acc. induction ms as [|m rest IH]; intros acc Hn.
  - destruct Hn. constructor.
  - simpl. destruct (deref h m) as [d|] eqn:Hd; [|by eexists].
    apply IH. intros Hrest. apply Hn. constructor; [by eexists|done].
Qed.

Section FoldInsert.
Context {V : Type}.
Implicit Types (acc : gmap string V) (es : list (string * V)).

Local Abbreviation put := (λ a e, <[e.1 := e.2]> a).

Lemma lookup_put_notin es acc n :
  n ∉ es.*1 → foldl put acc es !! n = acc !! n.
Proof.
  revert acc. induction es as [|[k v] es IH]; intros acc Hn; [done|].
  simpl in *. apply not_elem_of_cons in Hn as [Hk Hn].
  rewrite IH by done. by rewrite lookup_insert_ne.
Qed.

(** The later of two pairs of one key wins. *)
Lemma lookup_put_last es1 es2 acc n v :
  n ∉ es2.*1 → foldl put acc (es1 ++ (n, v) :: es2) !! n = Some v.
Proof.
  intros Hn. rewrite foldl_app. simpl.
  rewrite lookup_put_notin by done. apply lookup_insert_eq.
Qed.

Lemma dom_put es acc :
  dom (foldl put acc es) = dom acc ∪ list_to_set es.*1.
Proof.
  revert acc. induction es as [|[k v] es IH]; intros acc; simpl.
  - by rewrite (right_id_L ∅ (∪)).
  - rewrite IH, dom_insert_L.
    by rewrite (comm_L (∪) {[k]} (dom acc)), (assoc_L (∪)).
Qed.

Lemma size_put_le es acc :
  size (foldl put acc es) ≤ size acc + length es.
Proof.
  revert acc. induction es as [|[k v] es IH]; intros acc; simpl; [lia|].
  etrans; [apply IH|].
  destruct (acc !! k) as [w|] eqn:Hk.
  - rewrite <-(insert_delete_eq acc), map_size_insert_None
      by apply lookup_delete_eq.
    rewrite <-(insert_id acc k w) at 2 by done.
    rewrite <-(insert_delete_eq acc k w), map_size_insert_None
      by apply lookup_delete_eq. lia.
  - rewrite map_size_insert_None by done. lia.
Qed.

Lemma size_put_NoDup es acc :
  NoDup es.*1 → (∀ n, n ∈ es.*1 → acc !! n = None) →
  size (foldl put acc es) = size acc + length es.
Proof.
  revert acc. induction es as [|[k v] es IH]; intros acc Hnd Hacc; simpl.
  - lia.
  - simpl in Hnd. apply NoDup_cons in Hnd as [Hk Hnd].
    rewrite IH; [|done|].
    + rewrite map_size_insert_None; [lia|]. apply Hacc. simpl. left.
    + intros n Hn. rewrite lookup_insert_ne by (intros ->; done).
      apply Hacc. simpl. by right.
Qed.

End FoldInsert.

(** ** The pairs of a slice *)

Lemma entries_cons h m d rest :
  deref h m = Some d → entries h (m :: rest) = (Name d, m) :: entries h rest.
Proof. intros Hd. unfold entries. simpl. by rewrite Hd. Qed.

Lemma entries_app h ms1 ms2 :
  entries h (ms1 ++ ms2) = entries h ms1 ++ entries h ms2.
Proof. apply omap_app. Qed.

Lemma entries_length h ms :
  no_nil h ms → length (entries h ms) = length ms.
Proof.
  induction 1 as [|m rest [d Hd] _ IH]; [done|].
  rewrite (entries_cons _ _ d) by done. simpl. by rewrite IH.
Qed.

Lemma elem_of_entries h ms n m :
  (n, m) ∈ entries h ms ↔ m ∈ ms ∧ ∃ d, deref h m = Some d ∧ Name d = n.
Proof.
  unfold entries. rewrite list_elem_of_omap. split.
  - intros (m' & Hm' & Heq). destruct (deref h m') as [d|] eqn:Hd; [|done].
    simpl in Heq. injection Heq as <- <-. eauto.
  - intros (Hm & d & Hd & <-). exists m. by rewrite Hd.
Qed.

Lemma elem_of_entries_names h ms n :
  n ∈ (entries h ms).*1 ↔ ∃ m d, m ∈ ms ∧ deref h m = Some d ∧ Name d = n.
Proof.
  rewrite list_elem_of_fmap. split.
  - intros ([n' m] & -> & Hin). apply elem_of_entries in Hin.
    destruct Hin as (Hm & d & Hd & Hn). by exists m, d.
  - intros (m & d & Hm & Hd & <-). exists (Name d, m). split; [done|].
    apply elem_of_entries. eauto.
Qed.

(** ** [Execute] *)

Section RenderFacts.

Context {Tmpl error : Type}.
Variable template_Parse : string → Tmpl + error.
Variable template_Execute : Tmpl → heap → ServiceDesc → string * option error.
Variable os_ReadFile : string → string + error.

Local Abbreviation Execute := (Execute template_Parse template_Execute).
Local Abbreviation ReplaceTemplateIfNeed := (ReplaceTemplateIfNeed os_ReadFile).

(** What the map held when the call began plays no part. *)
Lemma Execute_ignores_MethodSets body h s old :
  Execute body h (set_MethodSets old s) = Execute body h s.
Proof. reflexivity. Qed.

(** A call returns exactly when no entry of [Methods] is nil. *)
Lemma Execute_returns body h s :
  no_nil h (Methods s) →
  ∃ idx text err,
    range_Methods h (Methods s) ∅ = Completed idx ∧
    Execute body h s = Returned (set_MethodSets (Some idx) s) text err.
Proof.
  intros Hms. unfold Template.Execute.
  rewrite range_Methods_no_nil by done.
  eexists. destruct (template_Parse body) as [tmpl|e].
  - destruct (template_Execute tmpl h _) as [buf [e|]]; eauto.
  - eauto.
Qed.

Lemma Execute_panics body h s :
  ¬ no_nil h (Methods s) → ∃ s', Execute body h s = Panicked s'.
Proof.
  intros Hms. unfold Template.Execute.
  destruct (range_Methods_nil h (Methods s) ∅ Hms) as [partial ->]. eauto.
Qed.

(** The receiver after a call, whatever the outcome. *)
Lemma Execute_receiver body h s :
  ∃ idx, receiver_after (Execute body h s) = set_MethodSets (Some idx) s.
Proof.
  unfold Template.Execute.
  destruct (range_Methods h (Methods s) ∅) as [idx|partial]; [|by eexists].
  exists idx. destruct (template_Parse body) as [tmpl|e]; [|done].
  by destruct (template_Execute tmpl h _) as [buf [e|]].
Qed.

(** The index a returning call leaves, by what it holds. *)
Lemma range_Methods_dom h ms idx n :
  range_Methods h ms ∅ = Completed idx →
  n ∈ dom idx ↔ ∃ m d, m ∈ ms ∧ deref h m = Some d ∧ Name d = n.
Proof.
  intros Hrun. destruct (decide (no_nil h ms)) as [Hms|Hms].
  - rewrite range_Methods_no_nil in Hrun by done. injection Hrun as <-.
    rewrite dom_put, dom_empty_L, (left_id_L ∅ (∪)), elem_of_list_to_set.
    apply elem_of_entries_names.
  - destruct (range_Methods_nil h ms ∅ Hms) as [partial Hp]. congruence.
Qed.

Lemma range_Methods_later_wins h before m after d idx :
  range_Methods h (before ++ m :: after) ∅ = Completed idx →
  deref h m = Some d →
  (∀ m' d', m' ∈ after → deref h m' = Some d' → Name d' ≠ Name d) →
  idx !! Name d = Some m.
Proof.
  intros Hrun Hd Hafter.
  destruct (decide (no_nil h (before ++ m :: after))) as [Hms|Hms].
  - rewrite range_Methods_no_nil in Hrun by done. injection Hrun as <-.
    rewrite entries_app, (entries_cons _ _ d) by done.
    apply (lookup_put_last _ _ _ (Name d) m).
    rewrite elem_of_entries_names. intros (m' & d' & Hm' & Hd' & Heq).
    by apply (Hafter m' d').
  - destruct (range_Methods_nil h _ ∅ Hms) as [partial Hp]. congruence.
Qed.

(** C1 (amended): on a ServiceDesc whose [Methods] entries are non-nil
    and carry pairwise distinct names, [Execute] returns, and afterwards
    [MethodSets] is the index of [Methods] by name:
    [MethodSets[m.Name] == m] for every [m] in [Methods], and
    [len(MethodSets) == len(Methods)]. *)
Theorem Execute_methodSet_consistent body h s :
  no_nil h (Methods s) →
  NoDup (entries h (Methods s)).*1 →
  ∃ s' text err,
    Execute body h s = Returned s' text err ∧
    Methods s' = Methods s ∧
    methodSet_consistent h s'.
Proof.
  intros Hms Hnd.
  destruct (Execute_returns body h s Hms) as (idx & text & err & Hidx & Hex).
  exists (set_MethodSets (Some idx) s), text, err.
  split; [done|]. split; [done|]. exists idx. split; [done|]. simpl.
  rewrite range_Methods_no_nil in Hidx by done. injection Hidx as <-.
  split.
  - intros m d Hm Hd.
    assert ((Name d, m) ∈ entries h (Methods s)) as Hin
      by (apply elem_of_entries; eauto).
    apply list_elem_of_split in Hin as (es1 & es2 & Hes).
    rewrite Hes in Hnd |- *. rewrite fmap_app, fmap_cons in Hnd.
    apply NoDup_app in Hnd as (_ & _ & Hnd). apply NoDup_cons in Hnd as [Hn _].
    by apply lookup_put_last.
  - rewrite size_put_NoDup by done.
    by rewrite map_size_empty, entries_length.
Qed.

(** In general the map is no longer than the slice. *)
Lemma range_Methods_size_le h ms idx :
  range_Methods h ms ∅ = Completed idx → size idx ≤ length ms.
Proof.
  intros Hrun. destruct (decide (no_nil h ms)) as [Hms|Hms].
  - rewrite range_Methods_no_nil in Hrun by done. injection Hrun as <-.
    etrans; [apply size_put_le|].
    by rewrite map_size_empty, entries_length.
  - destruct (range_Methods_nil h ms ∅ Hms) as [partial Hp]. congruence.
Qed.

(** C2 (amended): a call of [Execute], whether it succeeds or fails,
    leaves the fields [OptionsKey], [ServiceType], [ServiceName],
    [Methods] and [Package] of its receiver as they were; the one field
    it writes is [MethodSets], which it replaces by a newly made map,
    the rebuilt index when the call returns. *)
Theorem Execute_frame body h s :
  OptionsKey (receiver_after (Execute body h s)) = OptionsKey s ∧
  ServiceType (receiver_after (Execute body h s)) = ServiceType s ∧
  ServiceName (receiver_after (Execute body h s)) = ServiceName s ∧
  Methods (receiver_after (Execute body h s)) = Methods s ∧
  Package (receiver_after (Execute body h s)) = Package s ∧
  ∃ idx,
    MethodSets (receiver_after (Execute body h s)) = Some idx ∧
    (is_Some (returned (Execute body h s)) ↔
     range_Methods h (Methods s) ∅ = Completed idx).
Proof.
  unfold Template.Execute.
  destruct (range_Methods h (Methods s) ∅) as [idx|partial] eqn:Hrun.
  - assert (∀ text (err : option error),
      is_Some (returned (Returned (set_MethodSets (Some idx) s) text err))
      ↔ Completed idx = Completed idx) as Hret by (intros; split; eauto).
    destruct (template_Parse body) as [tmpl|e];
      [destruct (template_Execute tmpl h _) as [buf [e|]]|];
      simpl; repeat split; eauto.
  - simpl. repeat split; try done. exists partial. split; [done|].
    split; [by intros [? ?]|done].
Qed.

(** C3: [Execute] returns a non-nil error exactly when the template
    body fails to parse or the substitution over the ServiceDesc fails;
    in every error case the returned string is empty, whatever the
    substitution had written by then, and without an error it is the
    text the substitution wrote. *)
Theorem Execute_error_iff body h s :
  no_nil h (Methods s) →
  ∃ s' text err,
    Execute body h s = Returned s' text err ∧
    (is_Some err ↔
       (∃ e, template_Parse body = inr e) ∨
       (∃ tmpl, template_Parse body = inl tmpl ∧
                is_Some (template_Execute tmpl h s').2)) ∧
    (is_Some err → text = "") ∧
    (err = None →
       ∃ tmpl, template_Parse body = inl tmpl ∧
               text = (template_Execute tmpl h s').1).
Proof.
  intros Hms. unfold Template.Execute.
  rewrite range_Methods_no_nil by done.
  set (s' := set_MethodSets _ s).
  destruct (template_Parse body) as [tmpl|e] eqn:Hparse.
  - destruct (template_Execute tmpl h s') as [buf [e|]] eqn:Hsub.
    + exists s', "", (Some e). split; [done|]. split; [|done].
      split; [|by eauto]. intros _. right. exists tmpl. by rewrite Hsub.
    + exists s', buf, None. split; [done|]. split; [|split].
      * split; [by intros [? ?]|].
        intros [[e He]|(tmpl' & Htmpl & Herr)]; [done|].
        injection Htmpl as <-. by rewrite Hsub in Herr.
      * by intros [? ?].
      * intros _. exists tmpl. by rewrite Hsub.
  - exists s', "", (Some e). split; [done|]. split; [|done].
    split; [|by eauto]. intros _. left. by exists e.
Qed.

(** C4: [ReplaceTemplateIfNeed] with an empty path returns nil and
    leaves the template body as it was, so a later [Execute] renders
    with it; with a non-empty path it replaces the body by the contents
    of the file when the read succeeds, and returns the error of the
    read, the body unchanged, when it fails. *)
Theorem ReplaceTemplateIfNeed_spec path body :
  (path = "" →
     ReplaceTemplateIfNeed path body = (body, None) ∧
     ∀ h s, Execute (ReplaceTemplateIfNeed path body).1 h s = Execute body h s) ∧
  (∀ raw, path ≠ "" → os_ReadFile path = inl raw →
     ReplaceTemplateIfNeed path body = (raw, None)) ∧
  (∀ e, path ≠ "" → os_ReadFile path = inr e →
     ReplaceTemplateIfNeed path body = (body, Some e)).
Proof.
  unfold Template.ReplaceTemplateIfNeed. split; [|split].
  - intros ->. by rewrite decide_False by (intros Hne; done).
  - intros raw Hne Hread. by rewrite decide_True, Hread by done.
  - intros e Hne Hread. by rewrite decide_True, Hread by done.
Qed.

(** C9: [Execute] rebuilds [MethodSets] from scratch on every call.
    Whatever the map held before is discarded; afterwards its domain is
    exactly the set of names occurring in [Methods]; of two entries of
    one name the later one wins; and a second call in a row leaves the
    map the first call left. *)
Theorem Execute_rebuilds_MethodSets body h s :
  no_nil h (Methods s) →
  ∃ s' text err idx,
    Execute body h s = Returned s' text err ∧
    MethodSets s' = Some idx ∧
    (∀ old, MethodSets (receiver_after (Execute body h (set_MethodSets old s)))
            = Some idx) ∧
    (∀ n, n ∈ dom idx ↔
          ∃ m d, m ∈ Methods s ∧ deref h m = Some d ∧ Name d = n) ∧
    (∀ before m after d,
       Methods s = before ++ m :: after →
       deref h m = Some d →
       (∀ m' d', m' ∈ after → deref h m' = Some d' → Name d' ≠ Name d) →
       idx !! Name d = Some m) ∧
    Execute body h s' = Returned s' text err.
Proof.
  intros Hms.
  destruct (Execute_returns body h s Hms) as (idx & text & err & Hidx & Hex).
  exists (set_MethodSets (Some idx) s), text, err, idx.
  split; [done|]. split; [done|]. split; [|split; [|split]].
  - intros old. by rewrite Execute_ignores_MethodSets, Hex.
  - intros n. by apply range_Methods_dom.
  - intros before m after d Hsplit Hd Hafter. rewrite Hsplit in Hidx.
    by apply (range_Methods_later_wins h before m after d).
  - by rewrite Execute_ignores_MethodSets.
Qed.

End RenderFacts.

(** ** The renderer on the sample model *)

Local Abbreviation run := (Execute Sample.Parse Sample.Subst).

Lemma sample_no_nil ms :
  bool_decide (Forall (λ m, is_Some (deref Sample.objs m)) ms) = true →
  no_nil Sample.objs ms.
Proof. apply bool_decide_eq_true_1. Defined.

(** [Execute_methodSet_consistent] on two methods of distinct names. *)
Lemma Execute_methodSet_consistent_menu :
  ∃ s' text err,
    run "// routes of " Sample.objs Sample.menu = Returned s' text err ∧
    Methods s' = Methods Sample.menu ∧
    methodSet_consistent Sample.objs s'.
Proof.
  apply Execute_methodSet_consistent.
  - by apply sample_no_nil.
  - by apply (bool_decide_eq_true_1 _).
Defined.

(** C1, as stated, fails on two methods of one name: the call returns,
    the map has one entry for the two methods, and that entry is the
    second method. *)
Lemma Execute_methodSet_clash :
  ∃ s' text err,
    run "// routes of " Sample.objs Sample.clash = Returned s' text err ∧
    ¬ methodSet_consistent Sample.objs s'.
Proof.
  eexists _, _, _. split; [reflexivity|].
  intros (idx & Hidx & _ & Hsize). simpl in Hidx. injection Hidx as <-.
  vm_compute in Hsize. discriminate.
Qed.

(** C2, as stated, fails on a model whose index was not built yet:
    the call replaces the nil map, when it succeeds and when the
    template does not parse. *)
Lemma Execute_writes_MethodSets :
  (∃ s' text,
     run "// routes of " Sample.objs Sample.menu = Returned s' text None ∧
     MethodSets s' ≠ MethodSets Sample.menu) ∧
  (∃ s' e,
     run "{{" Sample.objs Sample.menu = Returned s' "" (Some e) ∧
     MethodSets s' ≠ MethodSets Sample.menu).
Proof. split; eexists _, _; (split; [reflexivity|done]). Qed.

(** [Execute_error_iff] where the substitution fails after it has
    written some text. *)
Lemma Execute_error_iff_missing_field :
  ∃ s' text err,
    run "{{.Missing}}" Sample.objs Sample.menu = Returned s' text err ∧
    (is_Some err ↔
       (∃ e, Sample.Parse "{{.Missing}}" = inr e) ∨
       (∃ tmpl, Sample.Parse "{{.Missing}}" = inl tmpl ∧
                is_Some (Sample.Subst tmpl Sample.objs s').2)) ∧
    (is_Some err → text = "") ∧
    (err = None →
       ∃ tmpl, Sample.Parse "{{.Missing}}" = inl tmpl ∧
               text = (Sample.Subst tmpl Sample.objs s').1).
Proof. apply Execute_error_iff. by apply sample_no_nil. Defined.

(** [ReplaceTemplateIfNeed_spec] on no path, a readable file and a
    missing file. *)
Lemma ReplaceTemplateIfNeed_sample :
  ReplaceTemplateIfNeed Sample.ReadFile "" "default body"
  = ("default body", None) ∧
  ReplaceTemplateIfNeed Sample.ReadFile "route.tmpl" "default body"
  = ("custom body", None) ∧
  ReplaceTemplateIfNeed Sample.ReadFile "missing.tmpl" "default body"
  = ("default body", Some "no such file").
Proof.
  pose proof (ReplaceTemplateIfNeed_spec Sample.Parse Sample.Subst
                Sample.ReadFile) as Hspec.
  split; [|split].
  - destruct (Hspec "" "default body") as [Hempty _].
    exact (proj1 (Hempty eq_refl)).
  - destruct (Hspec "route.tmpl" "default body") as (_ & Hread & _).
    by apply Hread.
  - destruct (Hspec "missing.tmpl" "default body") as (_ & _ & Hfail).
    by apply Hfail.
Defined.

(** [Execute_rebuilds_MethodSets] on a model with a stale index. *)
Lemma Execute_rebuilds_MethodSets_stale :
  ∃ s' text err idx,
    run "// routes of " Sample.objs Sample.stale = Returned s' text err ∧
    MethodSets s' = Some idx ∧
    (∀ old,
       MethodSets (receiver_after
         (run "// routes of " Sample.objs (set_MethodSets old Sample.stale)))
       = Some idx) ∧
    (∀ n, n ∈ dom idx ↔
          ∃ m d, m ∈ Methods Sample.stale ∧
                 deref Sample.objs m = Some d ∧ Name d = n) ∧
    (∀ before m after d,
       Methods Sample.stale = before ++ m :: after →
       deref Sample.objs m = Some d →
       (∀ m' d', m' ∈ after → deref Sample.objs m' = Some d' →
                 Name d' ≠ Name d) →
       idx !! Name d = Some m) ∧
    run "// routes of " Sample.objs s' = Returned s' text err.
Proof. apply Execute_rebuilds_MethodSets. by apply sample_no_nil. Defined.

(** * Facts about the model builder *)

Import Builder.

(** ** The Name Disambiguator *)

Lemma assign_all_cons c rest st :
  assign_all (c :: rest) st
  = (((assign c st).1 :: (assign_all rest (assign c st).2).1),
     (assign_all rest (assign c st).2).2).
Proof.
  simpl. unfold mbind, Build_bind, mret, Build_ret. simpl.
  by destruct (assign_all rest _).
Qed.

(** A request is answered by the counter of its name at the start,
    plus the number of earlier requests for that name. *)
Lemma assign_all_lookup candidates st i c :
  candidates !! i = Some c →
  (assign_all candidates st).1 !! i
  = Some (c, (default 0 (st_counters st !! c)
              + Z.of_nat (length (filter (λ c', c' = c) (take i candidates))))%Z).
Proof.
  revert st i. induction candidates as [|c0 rest IH]; intros st i Hi; [done|].
  rewrite assign_all_cons. destruct i as [|i]; simpl in *.
  - injection Hi as ->. by rewrite Z.add_0_r.
  - rewrite (IH _ i) by done. simpl. do 2 f_equal.
    destruct (decide (c0 = c)) as [->|Hne].
    + rewrite lookup_insert_eq, filter_cons_True by done. simpl. lia.
    + rewrite lookup_insert_ne, filter_cons_False by done. done.
Qed.

(** C6: within one generation run, which starts with an empty counter
    map, a request to the Name Disambiguator for [candidateName] yields
    as dedupNumber the number of earlier requests for that same name:
    0 for the first, then 1, 2, and so on, whatever was requested for
    other names in between. *)
Theorem assign_counts_earlier_requests candidates h i c :
  candidates !! i = Some c →
  (assign_all candidates (start h)).1 !! i
  = Some (c, Z.of_nat (length (filter (λ c', c' = c) (take i candidates)))).
Proof.
  intros Hi. rewrite (assign_all_lookup _ _ _ c) by done.
  simpl. by rewrite lookup_empty.
Qed.

(** The third request for a name, with another name in between. *)
Lemma assign_third_request :
  (assign_all ["MenuServiceUpdate"; "MenuServiceUpdate"; "MenuServicePing";
               "MenuServiceUpdate"] (start Sample.objs)).1 !! 3
  = Some ("MenuServiceUpdate", 2%Z).
Proof. by apply assign_counts_earlier_requests. Defined.

(** ** The walk over the descriptor set *)

Lemma extends_refl h : extends h h.
Proof. by split. Qed.

Lemma extends_trans h1 h2 h3 : extends h1 h2 → extends h2 h3 → extends h1 h3.
Proof.
  intros [Hm12 Hp12] [Hm23 Hp23]. split; [by etrans|congruence].
Qed.

Lemma deref_extends h h' p d :
  extends h h' → deref h p = Some d → deref h' p = Some d.
Proof.
  intros [Hsub _]. destruct p as [|l]; [done|]. simpl.
  intros Hl. by eapply lookup_weaken.
Qed.

Lemma built_from_extends h h' sv rk p m :
  extends h h' → built_from h sv rk p m → built_from h' sv rk p m.
Proof.
  intros Hext (d & a & Hd & Hrest). exists d, a.
  split; [by eapply deref_extends|done].
Qed.

(** What the extractor found on a method of the pass. *)
Lemma matches_extract rk m :
  matches rk m →
  ∃ a, annotation m = Some a ∧ key a = rk ∧ key a ≠ "" ∧
       extract m = Some (rk, extra a).
Proof.
  unfold matches, routing_key, extract.
  destruct (annotation m) as [a|]; [|done].
  destruct (decide (key a = "")) as [|Hne]; [done|].
  simpl. intros [= <-]. by exists a.
Qed.

(** An absent block and a block with an empty key match no pass. *)
Lemma not_annotated_iff m :
  ¬ annotated m ↔
  annotation m = None ∨ ∃ a, annotation m = Some a ∧ key a = "".
Proof.
  unfold annotated, routing_key, extract.
  destruct (annotation m) as [a|].
  - destruct (decide (key a = "")) as [He|Hne]; simpl.
    + split; [intros _; right; by exists a|]. by intros _ [? ?].
    + split; [intros Hn; destruct Hn; by eexists|].
      intros [|(a' & [= <-] & He)]; done.
  - simpl. split; [by left|]. by intros _ [? ?].
Qed.

Lemma matches_annotated rk m : matches rk m → annotated m.
Proof. unfold matches, annotated. intros ->. by eexists. Qed.

Lemma build_method_skip sv rk m st :
  ¬ matches rk m → build_method sv rk m st = (None, st).
Proof.
  unfold matches, routing_key, build_method.
  destruct (extract m) as [[k extras]|]; [|done]. simpl. intros Hk.
  rewrite decide_False; [done|]. by intros ->.
Qed.

Lemma build_method_match sv rk m st :
  matches rk m →
  ∃ p st',
    build_method sv rk m st = (Some p, st') ∧
    built_from (st_heap st') sv rk p m ∧
    extends (st_heap st) (st_heap st').
Proof.
  intros Hm. destruct (matches_extract rk m Hm) as (a & Ha & Hk & Hne & Hex).
  unfold build_method. rewrite Hex, decide_True by done.
  unfold mbind, Build_bind, mret, Build_ret, assign, alloc. simpl.
  eexists _, _. split; [reflexivity|]. split.
  - eexists _, a. simpl. rewrite lookup_insert_eq. by repeat split.
  - split; [|done]. simpl. apply insert_subseteq.
    apply not_elem_of_dom, is_fresh.
Qed.

(** A method outside the pass leaves no trace, not even in the
    counters. *)
Lemma build_methods_cons_skip sv rk m rest st :
  ¬ matches rk m →
  build_methods sv rk (m :: rest) st = build_methods sv rk rest st.
Proof.
  intros Hm. simpl. unfold mbind, Build_bind, mret, Build_ret.
  rewrite build_method_skip by done. by destruct (build_methods sv rk rest st).
Qed.

Lemma build_methods_cons_match sv rk m rest st p st1 :
  build_method sv rk m st = (Some p, st1) →
  build_methods sv rk (m :: rest) st
  = (p :: (build_methods sv rk rest st1).1, (build_methods sv rk rest st1).2).
Proof.
  intros Hm. simpl. unfold mbind, Build_bind, mret, Build_ret.
  rewrite Hm. by destruct (build_methods sv rk rest st1).
Qed.

(** The methods built for a service are those of the pass, in order. *)
Lemma build_methods_spec sv rk ms st :
  Forall2 (built_from (st_heap (build_methods sv rk ms st).2) sv rk)
          (build_methods sv rk ms st).1 (filter (matches rk) ms) ∧
  extends (st_heap st) (st_heap (build_methods sv rk ms st).2).
Proof.
  revert st. induction ms as [|m rest IH]; intros st.
  - split; [constructor|apply extends_refl].
  - destruct (decide (matches rk m)) as [Hm|Hm].
    + destruct (build_method_match sv rk m st Hm) as (p & st1 & Hb & Hp & Hext).
      rewrite (build_methods_cons_match _ _ _ _ _ p st1) by done.
      rewrite filter_cons_True by done. simpl.
      destruct (IH st1) as [Hrest Hext1]. split.
      * constructor; [by eapply built_from_extends|done].
      * by eapply extends_trans.
    + rewrite build_methods_cons_skip, filter_cons_False by done. apply IH.
Qed.

Lemma build_methods_no_match sv rk ms st :
  filter (matches rk) ms = [] → build_methods sv rk ms st = ([], st).
Proof.
  induction ms as [|m rest IH]; [done|].
  destruct (decide (matches rk m)) as [Hm|Hm].
  - by rewrite filter_cons_True.
  - rewrite filter_cons_False, build_methods_cons_skip by done. apply IH.
Qed.

Lemma group_of_extends h h' rk pkg sd sv :
  extends h h' → group_of h rk pkg sd sv → group_of h' rk pkg sd sv.
Proof.
  intros Hext (Hk & Ht & Hn & Hp & Hms). repeat split; try done.
  eapply Forall2_impl; [done|]. intros p m. by apply built_from_extends.
Qed.

(** A service without a method of the pass yields no group and leaves
    the pass state as it was. *)
Lemma build_service_no_match rk pkg sv st :
  ¬ has_match rk sv → build_service rk pkg sv st = (None, st).
Proof.
  unfold has_match. intros Hn. apply dec_stable in Hn.
  unfold build_service, mbind, Build_bind.
  by rewrite build_methods_no_match.
Qed.

(** A service with a method of the pass yields its group. *)
Lemma build_service_match rk pkg sv st :
  has_match rk sv →
  ∃ sd st',
    build_service rk pkg sv st = (Some sd, st') ∧
    group_of (st_heap st') rk pkg sd sv ∧
    extends (st_heap st) (st_heap st').
Proof.
  unfold has_match. intros Hsome.
  destruct (build_methods_spec sv rk (service_methods sv) st) as [Hms Hext].
  unfold build_service, mbind, Build_bind, mret, Build_ret.
  destruct (build_methods sv rk (service_methods sv) st) as [ps st1].
  simpl in Hms, Hext. destruct ps as [|p ps].
  - apply Forall2_nil_inv_l in Hms. done.
  - unfold refresh_index.
    destruct (range_Methods (st_heap st1) (p :: ps) ∅) as [idx|partial];
      eexists _, st1; (split; [reflexivity|]); (split; [|done]);
      unfold group_of; simpl; by repeat split.
Qed.

Lemma build_services_cons rk pkg sv rest st :
  build_services rk pkg (sv :: rest) st
  = (from_option
       (λ sd, sd :: (build_services rk pkg rest (build_service rk pkg sv st).2).1)
       (build_services rk pkg rest (build_service rk pkg sv st).2).1
       (build_service rk pkg sv st).1,
     (build_services rk pkg rest (build_service rk pkg sv st).2).2).
Proof.
  simpl. unfold mbind, Build_bind, mret, Build_ret.
  destruct (build_service rk pkg sv st) as [o st1]. simpl.
  by destruct (build_services rk pkg rest st1).
Qed.

(** The groups built are those of the services that have a method of
    the pass, in order. *)
Lemma build_services_spec rk pkg svs st :
  Forall2 (group_of (st_heap (build_services rk pkg svs st).2) rk pkg)
          (build_services rk pkg svs st).1 (filter (has_match rk) svs) ∧
  extends (st_heap st) (st_heap (build_services rk pkg svs st).2).
Proof.
  revert st. induction svs as [|sv rest IH]; intros st.
  - split; [constructor|apply extends_refl].
  - rewrite build_services_cons.
    destruct (decide (has_match rk sv)) as [Hsv|Hsv].
    + destruct (build_service_match rk pkg sv st Hsv)
        as (sd & st1 & Hb & Hsd & Hext).
      rewrite Hb, filter_cons_True by done. simpl.
      destruct (IH st1) as [Hrest Hext1]. split.
      * constructor; [by eapply group_of_extends|done].
      * by eapply extends_trans.
    + rewrite build_service_no_match, filter_cons_False by done. apply IH.
Qed.

(** ** Dropping the methods that are not of the pass *)

Section Keep.

Context (P : MethodNode → Prop) `{!∀ m, Decision (P m)}.
Context (rk : string) (HP : ∀ m, matches rk m → P m).

Lemma build_methods_keep sv sv' ms st :
  service_type sv' = service_type sv →
  build_methods sv' rk (filter P ms) st = build_methods sv rk ms st.
Proof.
  intros Ht. revert st. induction ms as [|m rest IH]; intros st; [done|].
  destruct (decide (P m)) as [Hm|Hm].
  - rewrite filter_cons_True by done. simpl.
    unfold mbind, Build_bind, mret, Build_ret, build_method.
    rewrite Ht. destruct (match extract m with _ => _ end st) as [o st1].
    by rewrite IH.
  - rewrite filter_cons_False by done.
    rewrite (build_methods_cons_skip sv) by (intros Hrk; by apply Hm, HP).
    apply IH.
Qed.

Lemma build_service_keep pkg sv st :
  build_service rk pkg (keep_in_service P sv) st = build_service rk pkg sv st.
Proof.
  unfold build_service, mbind, Build_bind. simpl.
  by rewrite (build_methods_keep sv).
Qed.

Lemma build_services_keep pkg svs st :
  build_services rk pkg (keep_in_service P <$> svs) st
  = build_services rk pkg svs st.
Proof.
  revert st. induction svs as [|sv rest IH]; intros st; [done|].
  rewrite fmap_cons, !build_services_cons, build_service_keep.
  by rewrite IH.
Qed.

Lemma all_services_keep ds :
  all_services (keep_methods P ds) = keep_in_service P <$> all_services ds.
Proof.
  unfold all_services, keep_methods.
  induction ds as [|f rest IH]; [done|].
  rewrite !fmap_cons, !concat_cons, fmap_app. by f_equal.
Qed.

Lemma build_keep ds pkg st :
  build (keep_methods P ds) rk pkg st = build ds rk pkg st.
Proof. unfold build. by rewrite all_services_keep, build_services_keep. Qed.

End Keep.

(** ** The groups of a pass *)

Lemma build_groups ds rk pkg st sd :
  sd ∈ (build ds rk pkg st).1 →
  ∃ sv, sv ∈ all_services ds ∧ has_match rk sv ∧
        group_of (st_heap (build ds rk pkg st).2) rk pkg sd sv.
Proof.
  intros Hsd. apply list_elem_of_lookup in Hsd as [i Hi].
  destruct (build_services_spec rk pkg (all_services ds) st) as [Hall _].
  destruct (Forall2_lookup_l _ _ _ _ _ Hall Hi) as (sv & Hsv & Hg).
  apply list_elem_of_lookup_2, list_elem_of_filter in Hsv as [Hm Hin].
  by exists sv.
Qed.

Lemma group_of_methods h rk pkg sd sv p :
  group_of h rk pkg sd sv → p ∈ Methods sd →
  ∃ m, m ∈ service_methods sv ∧ matches rk m ∧ built_from h sv rk p m.
Proof.
  intros (_ & _ & _ & _ & Hms) Hp. apply list_elem_of_lookup in Hp as [i Hi].
  destruct (Forall2_lookup_l _ _ _ _ _ Hms Hi) as (m & Hm & Hb).
  apply list_elem_of_lookup_2, list_elem_of_filter in Hm as [Hm Hin].
  by exists m.
Qed.

Lemma group_of_nonempty h rk pkg sd sv :
  group_of h rk pkg sd sv → has_match rk sv → Methods sd ≠ [].
Proof.
  intros (_ & _ & _ & _ & Hms) Hsv Hnil. rewrite Hnil in Hms.
  by apply Forall2_nil_inv_l in Hms.
Qed.

(** C7: for every descriptor set and every routing key, a method whose
    annotation block is absent, or present with an empty key, is found
    by no pass: the output of [build], and the pass state it leaves,
    are those of the descriptor set with these methods removed; every
    method of every ServiceDesc produced was built from a method with a
    block of non-empty key; and no ServiceDesc produced has the empty
    string as [OptionsKey]. *)
Theorem build_excludes_unannotated ds rk pkg st :
  (∀ m, annotation m = None ∨ (∃ a, annotation m = Some a ∧ key a = "") →
        ¬ annotated m ∧ ¬ matches rk m) ∧
  build (keep_methods annotated ds) rk pkg st = build ds rk pkg st ∧
  (∀ sd, sd ∈ (build ds rk pkg st).1 →
     OptionsKey sd ≠ "" ∧
     ∀ p, p ∈ Methods sd →
       ∃ sv m a,
         sv ∈ all_services ds ∧ m ∈ service_methods sv ∧
         built_from (st_heap (build ds rk pkg st).2) sv rk p m ∧
         annotation m = Some a ∧ key a ≠ "").
Proof.
  split; [|split].
  - intros m Hm. apply not_annotated_iff in Hm.
    split; [done|]. intros Hrk. by apply Hm, (matches_annotated rk).
  - apply build_keep. apply matches_annotated.
  - intros sd Hsd. destruct (build_groups _ _ _ _ _ Hsd) as (sv & Hsv & Hhas & Hg).
    assert (∀ p, p ∈ Methods sd →
      ∃ sv m a,
        sv ∈ all_services ds ∧ m ∈ service_methods sv ∧
        built_from (st_heap (build ds rk pkg st).2) sv rk p m ∧
        annotation m = Some a ∧ key a ≠ "") as Hmethods.
    { intros p Hp.
      destruct (group_of_methods _ _ _ _ _ _ Hg Hp) as (m & Hm & _ & Hb).
      pose proof Hb as (d & a & _ & Ha & _ & Hne & _).
      by exists sv, m, a. }
    split; [|done].
    pose proof (group_of_nonempty _ _ _ _ _ Hg Hhas) as Hne.
    destruct (Methods sd) as [|p ps] eqn:Hps; [done|].
    destruct (Hmethods p) as (sv' & m & a & _ & _ & Hb & Ha & Hk); [left|].
    destruct Hb as (d & a' & _ & Ha' & Hrk & _).
    destruct Hg as (-> & _). congruence.
Qed.

(** C8: key partitioning. The ServiceDescs that [build] produces for
    [routingKey] are, in order, the route groups of exactly the services
    that have a method annotated with that key: every one carries
    [routingKey] as [OptionsKey] and has at least one method, every
    method of it was built from a method whose annotation key equals
    [routingKey], a method annotated with a different key takes no part
    (removing those methods changes neither the output nor the pass
    state), and a service with no method for the key contributes no
    ServiceDesc. *)
Theorem build_key_partition ds rk pkg st :
  Forall2 (group_of (st_heap (build ds rk pkg st).2) rk pkg)
          (build ds rk pkg st).1 (filter (has_match rk) (all_services ds)) ∧
  (∀ sd, sd ∈ (build ds rk pkg st).1 →
     OptionsKey sd = rk ∧ Methods sd ≠ [] ∧
     ∀ p, p ∈ Methods sd →
       ∃ sv m a,
         sv ∈ all_services ds ∧ m ∈ service_methods sv ∧
         built_from (st_heap (build ds rk pkg st).2) sv rk p m ∧
         annotation m = Some a ∧ key a = rk) ∧
  build (keep_methods (matches rk) ds) rk pkg st = build ds rk pkg st ∧
  length (build ds rk pkg st).1
  = length (filter (has_match rk) (all_services ds)).
Proof.
  destruct (build_services_spec rk pkg (all_services ds) st) as [Hall _].
  split; [done|]. split; [|split].
  - intros sd Hsd. destruct (build_groups _ _ _ _ _ Hsd) as (sv & Hsv & Hhas & Hg).
    split; [by destruct Hg|]. split; [by eapply group_of_nonempty|].
    intros p Hp.
    destruct (group_of_methods _ _ _ _ _ _ Hg Hp) as (m & Hm & _ & Hb).
    pose proof Hb as (d & a & _ & Ha & Hrk & _).
    by exists sv, m, a.
  - by apply build_keep.
  - by eapply Forall2_length.
Qed.

(** Every ServiceDesc a pass produces renders without a panic: no
    entry of its [Methods] is nil. *)
Lemma build_no_nil ds rk pkg st sd :
  sd ∈ (build ds rk pkg st).1 →
  no_nil (st_heap (build ds rk pkg st).2) (Methods sd).
Proof.
  intros Hsd. destruct (build_groups _ _ _ _ _ Hsd) as (sv & _ & _ & Hg).
  apply Forall_forall. intros p Hp.
  destruct (group_of_methods _ _ _ _ _ _ Hg Hp) as (m & _ & _ & Hb).
  destruct Hb as (d & a & Hd & _). by exists d.
Qed.

(** ** The builder on the sample descriptor set *)

Local Abbreviation pass := (λ rk,
  build Sample.descriptors rk (ref 1%positive) (start Sample.objs)).

(** The names and dedup numbers of the methods of a group. *)
Local Abbreviation listing := (λ h sd,
  (λ d, (Name d, OriginalName d, Num d)) <$> omap (deref h) (Methods sd)).

(** The pass for "bot" yields the one group of MenuService, with its
    two bot methods in declaration order, numbered 0. *)
Example pass_bot :
  (λ sd, (ServiceName sd, listing (st_heap (pass "bot").2) sd))
    <$> (pass "bot").1
  = [("bot.v1.MenuService",
      [("UpdateCount", "MenuServiceUpdateCount", 0%Z);
       ("ProcessMenu", "MenuServiceProcessMenu", 0%Z)])].
Proof. by vm_compute. Qed.

(** The pass for "http" yields a group for each of the two services
    with an http method. *)
Example pass_http :
  (λ sd, (ServiceName sd, listing (st_heap (pass "http").2) sd))
    <$> (pass "http").1
  = [("bot.v1.MenuService", [("Export", "MenuServiceExport", 0%Z)]);
     ("bot.v1.UserService", [("GetUser", "UserServiceGetUser", 0%Z)])].
Proof. by vm_compute. Qed.

(** The pass for the empty key yields nothing, the method with an
    empty key included. *)
Example pass_empty_key : (pass "").1 = [].
Proof. by vm_compute. Qed.

(** [build_excludes_unannotated] on the sample: the methods Health and
    Draft can be removed without a change to the pass for "bot". *)
Lemma build_excludes_unannotated_sample :
  build (keep_methods annotated Sample.descriptors) "bot" (ref 1%positive)
        (start Sample.objs)
  = pass "bot".
Proof.
  exact (proj1 (proj2 (build_excludes_unannotated
    Sample.descriptors "bot" (ref 1%positive) (start Sample.objs)))).
Defined.

(** [build_key_partition] on the sample: the pass for "http" yields as
    many groups as there are services with an http method. *)
Lemma build_key_partition_sample :
  length (pass "http").1
  = length (filter (has_match "http") (all_services Sample.descriptors)).
Proof.
  exact (proj2 (proj2 (proj2 (build_key_partition
    Sample.descriptors "http" (ref 1%positive) (start Sample.objs))))).
Defined.

(** * Further facts about the renderer *)

(** ** More on the index loop *)

(** The loop over a concatenation runs the loop of the second slice on
    what the loop of the first left, unless the first panicked. *)
Lemma range_Methods_app h ms1 ms2 acc :
  range_Methods h (ms1 ++ ms2) acc
  = match range_Methods h ms1 acc with
    | Completed idx => range_Methods h ms2 idx
    | NilDeref partial => NilDeref partial
    end.
Proof.
  revert acc. induction ms1 as [|m rest IH]; intros acc; [done|].
  simpl. by destruct (deref h m) as [d|].
Qed.

Lemma no_nil_app h ms1 ms2 :
  no_nil h (ms1 ++ ms2) ↔ no_nil h ms1 ∧ no_nil h ms2.
Proof. apply Forall_app. Qed.

Section FoldInsertMore.
Context {V : Type}.
Implicit Types (acc : gmap string V) (es : list (string * V)).

Local Abbreviation put := (λ a e, <[e.1 := e.2]> a).

(** Inserting into a map is inserting into the empty map, then taking
    the union with priority to the insertions. *)
Lemma foldl_put_union es acc :
  foldl put acc es = foldl put ∅ es ∪ acc.
Proof.
  revert acc. induction es as [|[k v] es IH]; intros acc; simpl.
  - by rewrite (left_id_L ∅ (∪)).
  - rewrite (IH (<[k:=v]> acc)), (IH (<[k:=v]> ∅)).
    rewrite <-(assoc_L (∪)). f_equal.
    by rewrite insert_empty, <-insert_union_singleton_l.
Qed.

(** A value found was put by the last pair of its key. *)
Lemma lookup_put_inv es n v :
  foldl put (∅ : gmap string V) es !! n = Some v →
  ∃ es1 es2, es = es1 ++ (n, v) :: es2 ∧ n ∉ es2.*1.
Proof.
  induction es as [|[k w] es IH] using rev_ind; [done|].
  rewrite foldl_app. simpl. destruct (decide (k = n)) as [->|Hne].
  - rewrite lookup_insert_eq. intros [= ->].
    exists es, []. split; [done|]. simpl. apply not_elem_of_nil.
  - rewrite lookup_insert_ne by done. intros Hl.
    destruct (IH Hl) as (es1 & es2 & -> & Hn).
    exists es1, (es2 ++ [(k, w)]). split; [by rewrite <-app_assoc|].
    rewrite fmap_app. simpl. rewrite not_elem_of_app. split; [done|].
    rewrite list_elem_of_singleton. congruence.
Qed.

(** With pairwise distinct keys the map holds exactly the pairs. *)
Lemma lookup_put_NoDup es n v :
  NoDup es.*1 →
  foldl put (∅ : gmap string V) es !! n = Some v ↔ (n, v) ∈ es.
Proof.
  intros Hnd. split.
  - intros Hl. destruct (lookup_put_inv _ _ _ Hl) as (es1 & es2 & -> & _).
    apply elem_of_app. right. left.
  - intros Hin. apply list_elem_of_split in Hin as (es1 & es2 & ->).
    rewrite fmap_app, fmap_cons in Hnd.
    apply NoDup_app in Hnd as (_ & _ & Hnd). apply NoDup_cons in Hnd as [Hn _].
    by apply lookup_put_last.
Qed.

End FoldInsertMore.

(** The number of distinct elements of a list. *)
Lemma length_remove_dups_le (l : list string) :
  length (remove_dups l) ≤ length l.
Proof.
  induction l as [|x l IH]; [done|]. simpl.
  destruct (decide_rel _ x l); simpl; lia.
Qed.

Lemma length_remove_dups_NoDup (l : list string) :
  length (remove_dups l) = length l ↔ NoDup l.
Proof.
  induction l as [|x l IH]; simpl.
  - split; [constructor|done].
  - pose proof (length_remove_dups_le l) as Hle.
    destruct (decide_rel _ x l) as [Hin|Hin]; simpl.
    + split; [lia|]. intros Hnd. apply NoDup_cons in Hnd as [Hx _]. done.
    + rewrite NoDup_cons. split.
      * intros Heq. split; [done|]. apply IH. lia.
      * intros [_ Hnd]. apply IH in Hnd. lia.
Qed.

Lemma size_list_to_set_remove_dups (l : list string) :
  size (list_to_set l : gset string) = length (remove_dups l).
Proof.
  rewrite <-(size_list_to_set (C:=gset string) (remove_dups l))
    by apply NoDup_remove_dups.
  f_equal. apply set_eq. intros x.
  by rewrite !elem_of_list_to_set, elem_of_remove_dups.
Qed.

(** The pairs of a slice without a nil entry, split where the slice
    is. *)
Lemma range_Methods_lookup_inv h ms n m :
  no_nil h ms →
  foldl (λ a e, <[e.1 := e.2]> a) (∅ : gmap string ptr) (entries h ms) !! n
  = Some m →
  ∃ before after d,
    ms = before ++ m :: after ∧ deref h m = Some d ∧ Name d = n ∧
    n ∉ (entries h after).*1.
Proof.
  induction ms as [|x ms IH] using rev_ind; [done|].
  rewrite no_nil_app. intros [Hms Hx]. apply Forall_singleton in Hx as [dx Hdx].
  rewrite entries_app, (entries_cons _ _ dx), foldl_app by done. simpl.
  destruct (decide (Name dx = n)) as [<-|Hne].
  - rewrite lookup_insert_eq. intros [= <-].
    exists ms, [], dx. repeat split; try done. apply not_elem_of_nil.
  - rewrite lookup_insert_ne by done. intros Hl.
    destruct (IH Hms Hl) as (before & after & d & -> & Hd & Hn & Hafter).
    exists before, (after ++ [x]), d.
    split; [by rewrite <-app_assoc|]. split; [done|]. split; [done|].
    rewrite entries_app, (entries_cons _ _ dx), fmap_app by done. simpl.
    rewrite not_elem_of_app. split; [done|].
    rewrite list_elem_of_singleton. congruence.
Qed.

(** ** More on [Execute] and [ReplaceTemplateIfNeed] *)

Section RenderMore.

Context {Tmpl error : Type}.
Variable template_Parse : string → Tmpl + error.
Variable template_Execute : Tmpl → heap → ServiceDesc → string * option error.
Variable os_ReadFile : string → string + error.

Local Abbreviation Execute := (Execute template_Parse template_Execute).
Local Abbreviation ReplaceTemplateIfNeed := (ReplaceTemplateIfNeed os_ReadFile).

(** X2: when the first nil entry of [Methods] comes after the entries
    [before], [Execute] panics there, for every template body, and
    leaves in [MethodSets] the index of [before] alone: the receiver
    is half updated. *)
Theorem Execute_panics_at_first_nil body h s before m after :
  Methods s = before ++ m :: after →
  no_nil h before →
  deref h m = None →
  ∃ idx,
    range_Methods h before ∅ = Completed idx ∧
    Execute body h s = Panicked (set_MethodSets (Some idx) s) ∧
    (∀ n, n ∈ dom idx ↔
          ∃ m' d, m' ∈ before ∧ deref h m' = Some d ∧ Name d = n).
Proof.
  intros Hsplit Hbefore Hm.
  pose proof (range_Methods_no_nil h before ∅ Hbefore) as Hrun.
  eexists. split; [exact Hrun|]. split.
  - unfold Template.Execute.
    rewrite Hsplit, range_Methods_app, Hrun. simpl. by rewrite Hm.
  - intros n. by apply range_Methods_dom.
Qed.

(** X3: after a call that returns, [len(MethodSets)] is the number of
    distinct names among the methods; it is at most [len(Methods)],
    and equal to it exactly when the names are pairwise distinct. *)
Theorem Execute_MethodSets_size body h s :
  no_nil h (Methods s) →
  ∃ idx,
    MethodSets (receiver_after (Execute body h s)) = Some idx ∧
    size idx = length (remove_dups (entries h (Methods s)).*1) ∧
    size idx ≤ length (Methods s) ∧
    (size idx = length (Methods s) ↔ NoDup (entries h (Methods s)).*1).
Proof.
  intros Hms.
  destruct (Execute_returns template_Parse template_Execute body h s Hms)
    as (idx & text & err & Hidx & ->).
  exists idx. split; [done|].
  assert (size idx = length (remove_dups (entries h (Methods s)).*1)) as Hsize.
  { rewrite range_Methods_no_nil in Hidx by done. injection Hidx as <-.
    rewrite <-size_dom, dom_put, dom_empty_L, (left_id_L ∅ (∪)).
    apply size_list_to_set_remove_dups. }
  split; [done|]. split.
  - by apply (range_Methods_size_le h).
  - rewrite Hsize, <-(entries_length h (Methods s)) by done.
    rewrite <-(length_fmap fst (entries h (Methods s))).
    apply length_remove_dups_NoDup.
Qed.

(** X4: after a call that returns, [MethodSets[n]] is [m] exactly when
    [m] is the last entry of [Methods] whose [Name] is [n]; so every
    value of the map is a non-nil entry of [Methods], stored under its
    own name. *)
Theorem Execute_MethodSets_lookup body h s :
  no_nil h (Methods s) →
  ∃ idx,
    MethodSets (receiver_after (Execute body h s)) = Some idx ∧
    ∀ n m,
      idx !! n = Some m ↔
      ∃ before after d,
        Methods s = before ++ m :: after ∧
        deref h m = Some d ∧ Name d = n ∧
        ∀ m' d', m' ∈ after → deref h m' = Some d' → Name d' ≠ n.
Proof.
  intros Hms.
  destruct (Execute_returns template_Parse template_Execute body h s Hms)
    as (idx & text & err & Hidx & ->).
  exists idx. split; [done|]. intros n m. split.
  - intros Hl. pose proof Hidx as Hrun.
    rewrite range_Methods_no_nil in Hrun by done. injection Hrun as <-.
    destruct (range_Methods_lookup_inv h _ n m Hms Hl)
      as (before & after & d & Hsplit & Hd & Hn & Hafter).
    exists before, after, d. repeat split; try done.
    intros m' d' Hm' Hd' Heq. apply Hafter, elem_of_entries_names.
    by exists m', d'.
  - intros (before & after & d & Hsplit & Hd & <- & Hafter).
    rewrite Hsplit in Hidx.
    by apply (range_Methods_later_wins h before m after d).
Qed.

(** X5: the index of a concatenation. When [Methods] of [s] is
    [Methods] of [s1] followed by [Methods] of [s2], the map a call
    leaves in [s] is the union of the maps calls leave in [s1] and
    [s2], an entry of [s2] taking the place of an entry of [s1] of the
    same name. *)
Theorem Execute_MethodSets_app body h s s1 s2 :
  Methods s = Methods s1 ++ Methods s2 →
  no_nil h (Methods s) →
  ∃ idx1 idx2,
    MethodSets (receiver_after (Execute body h s1)) = Some idx1 ∧
    MethodSets (receiver_after (Execute body h s2)) = Some idx2 ∧
    MethodSets (receiver_after (Execute body h s)) = Some (idx2 ∪ idx1).
Proof.
  intros Hsplit Hms. pose proof Hms as Hparts.
  rewrite Hsplit, no_nil_app in Hparts. destruct Hparts as [Hms1 Hms2].
  destruct (Execute_returns template_Parse template_Execute body h s Hms)
    as (idx & text & err & Hidx & ->).
  destruct (Execute_returns template_Parse template_Execute body h s1 Hms1)
    as (idx1 & text1 & err1 & Hidx1 & ->).
  destruct (Execute_returns template_Parse template_Execute body h s2 Hms2)
    as (idx2 & text2 & err2 & Hidx2 & ->).
  exists idx1, idx2. split; [done|]. split; [done|]. simpl. f_equal.
  rewrite Hsplit, range_Methods_app, Hidx1 in Hidx.
  rewrite range_Methods_no_nil in Hidx, Hidx2 by done.
  injection Hidx as <-. injection Hidx2 as <-. apply foldl_put_union.
Qed.

(** X6: with pairwise distinct names the index does not depend on the
    order of [Methods]: calls on two models whose [Methods] are
    permutations of each other leave the same map. *)
Theorem Execute_MethodSets_permutation body h s1 s2 :
  Methods s1 ≡ₚ Methods s2 →
  no_nil h (Methods s1) →
  NoDup (entries h (Methods s1)).*1 →
  ∃ idx,
    MethodSets (receiver_after (Execute body h s1)) = Some idx ∧
    MethodSets (receiver_after (Execute body h s2)) = Some idx.
Proof.
  intros Hperm Hms1 Hnd1.
  assert (no_nil h (Methods s2)) as Hms2 by (unfold no_nil; by rewrite <-Hperm).
  assert (entries h (Methods s1) ≡ₚ entries h (Methods s2)) as Hes
    by (unfold entries; by rewrite Hperm).
  assert (NoDup (entries h (Methods s2)).*1) as Hnd2 by (by rewrite <-Hes).
  destruct (Execute_returns template_Parse template_Execute body h s1 Hms1)
    as (idx1 & text1 & err1 & Hidx1 & ->).
  destruct (Execute_returns template_Parse template_Execute body h s2 Hms2)
    as (idx2 & text2 & err2 & Hidx2 & ->).
  exists idx1. split; [done|]. simpl. f_equal.
  rewrite range_Methods_no_nil in Hidx1, Hidx2 by done.
  injection Hidx1 as <-. injection Hidx2 as <-.
  apply map_eq. intros n. apply option_eq. intros m.
  rewrite !lookup_put_NoDup by done. by rewrite Hes.
Qed.

(** X7: [ReplaceTemplateIfNeed] does not parse what it reads. A file
    whose contents are not a template is installed without an error,
    and from then on every call of [Execute] that reaches the parse
    returns the parse error and no text. *)
Theorem ReplaceTemplateIfNeed_unvalidated path body raw e :
  path ≠ "" →
  os_ReadFile path = inl raw →
  template_Parse raw = inr e →
  ReplaceTemplateIfNeed path body = (raw, None) ∧
  ∀ h s, no_nil h (Methods s) →
    returned (Execute (ReplaceTemplateIfNeed path body).1 h s)
    = Some ("", Some e).
Proof.
  intros Hpath Hread Hparse.
  assert (ReplaceTemplateIfNeed path body = (raw, None)) as Hrep.
  { unfold Template.ReplaceTemplateIfNeed.
    by rewrite decide_True, Hread by done. }
  split; [done|]. intros h s Hms. rewrite Hrep. simpl.
  unfold Template.Execute. rewrite range_Methods_no_nil by done.
  by rewrite Hparse.
Qed.

End RenderMore.

(** ** These facts on the sample model *)

Local Abbreviation objs := Template.Sample.objs.
Local Abbreviation service := Template.Sample.service.

(** [Execute_panics_at_first_nil] on a nil entry between two methods,
    under a body that would not parse. *)
Lemma Execute_panics_at_first_nil_sample :
  ∃ idx,
    range_Methods objs [ref 1%positive] ∅ = Completed idx ∧
    run "{{" objs (service [ref 1%positive; nil; ref 2%positive] None)
    = Panicked (set_MethodSets (Some idx)
                  (service [ref 1%positive; nil; ref 2%positive] None)) ∧
    (∀ n, n ∈ dom idx ↔
          ∃ m' d, m' ∈ [ref 1%positive] ∧ deref objs m' = Some d ∧ Name d = n).
Proof.
  apply (Execute_panics_at_first_nil _ _ _ _ _ [ref 1%positive] nil
           [ref 2%positive]); [done| |done].
  by apply sample_no_nil.
Defined.

(** [Execute_MethodSets_size] on two methods of one name. *)
Lemma Execute_MethodSets_size_clash :
  ∃ idx,
    MethodSets (receiver_after (run "// routes of " objs Template.Sample.clash))
    = Some idx ∧
    size idx
    = length (remove_dups (entries objs (Methods Template.Sample.clash)).*1) ∧
    size idx ≤ length (Methods Template.Sample.clash) ∧
    (size idx = length (Methods Template.Sample.clash) ↔
     NoDup (entries objs (Methods Template.Sample.clash)).*1).
Proof. apply Execute_MethodSets_size. by apply sample_no_nil. Defined.

(** [Execute_MethodSets_lookup] on two methods of one name. *)
Lemma Execute_MethodSets_lookup_clash :
  ∃ idx,
    MethodSets (receiver_after (run "// routes of " objs Template.Sample.clash))
    = Some idx ∧
    ∀ n m,
      idx !! n = Some m ↔
      ∃ before after d,
        Methods Template.Sample.clash = before ++ m :: after ∧
        deref objs m = Some d ∧ Name d = n ∧
        ∀ m' d', m' ∈ after → deref objs m' = Some d' → Name d' ≠ n.
Proof. apply Execute_MethodSets_lookup. by apply sample_no_nil. Defined.

(** [Execute_MethodSets_app] on two methods followed by a third that
    repeats the name of the first. *)
Lemma Execute_MethodSets_app_sample :
  ∃ idx1 idx2,
    MethodSets (receiver_after (run "// routes of " objs Template.Sample.menu))
    = Some idx1 ∧
    MethodSets (receiver_after
      (run "// routes of " objs (service [ref 3%positive] None)))
    = Some idx2 ∧
    MethodSets (receiver_after
      (run "// routes of " objs
         (service [ref 1%positive; ref 2%positive; ref 3%positive] None)))
    = Some (idx2 ∪ idx1).
Proof.
  apply Execute_MethodSets_app; [done|]. by apply sample_no_nil.
Defined.

(** [Execute_MethodSets_permutation] on two methods in either order. *)
Lemma Execute_MethodSets_permutation_sample :
  ∃ idx,
    MethodSets (receiver_after (run "// routes of " objs Template.Sample.menu))
    = Some idx ∧
    MethodSets (receiver_after
      (run "// routes of " objs (service [ref 2%positive; ref 1%positive] None)))
    = Some idx.
Proof.
  apply Execute_MethodSets_permutation.
  - apply perm_swap.
  - by apply sample_no_nil.
  - by apply (bool_decide_eq_true_1 _).
Defined.

(** [ReplaceTemplateIfNeed_unvalidated] on a file that holds an action
    left open. *)
Lemma ReplaceTemplateIfNeed_unvalidated_sample :
  Template.ReplaceTemplateIfNeed
    (λ path, if decide (path = "broken.tmpl") then inl "{{"
             else inr "no such file")
    "broken.tmpl" "default body"
  = ("{{", None) ∧
  ∀ h s, no_nil h (Methods s) →
    returned (run
      (Template.ReplaceTemplateIfNeed
         (λ path, if decide (path = "broken.tmpl") then inl "{{"
                  else inr "no such file")
         "broken.tmpl" "default body").1 h s)
    = Some ("", Some "unclosed action").
Proof. by apply ReplaceTemplateIfNeed_unvalidated. Defined.

(** * The renderer over an engine given as relations *)

Section RunFacts.

Context {Tmpl error : Type}.
Variable parses : string → Tmpl + error → Prop.
Variable substitutes : Tmpl → heap → ServiceDesc → string * option error → Prop.

Local Abbreviation Execute_run := (Execute_run parses substitutes).





End RunFacts.



(** The outcome of a run is the engine's to decide: over a
    substitution with two results, two calls on one model return two
    texts. *)
Lemma Execute_run_follows_engine :
  ∃ o1 o2,
    Template.Execute_run (parses_of Template.Sample.Parse) Template.Sample.Flaky
      "// routes of " objs Template.Sample.menu o1 ∧
    Template.Execute_run (parses_of Template.Sample.Parse) Template.Sample.Flaky
      "// routes of " objs Template.Sample.menu o2 ∧
    returned o1 ≠ returned o2.
Proof.
  eexists _, _. split; [|split].
  - eapply run_rendered; [reflexivity|reflexivity|]. by left.
  - eapply run_rendered; [reflexivity|reflexivity|]. by right.
  - done.
Qed.


(** * The index an error leaves behind *)

(** What the map of a completed loop holds: under a name, the last
    entry of that name. *)
Lemma range_Methods_lookup_iff h ms idx n m :
  range_Methods h ms ∅ = Completed idx →
  idx !! n = Some m ↔
  ∃ before after d,
    ms = before ++ m :: after ∧
    deref h m = Some d ∧ Name d = n ∧
    ∀ m' d', m' ∈ after → deref h m' = Some d' → Name d' ≠ n.
Proof.
  intros Hrun. split.
  - intros Hl. destruct (decide (no_nil h ms)) as [Hms|Hms].
    + rewrite range_Methods_no_nil in Hrun by done. injection Hrun as <-.
      destruct (range_Methods_lookup_inv h _ n m Hms Hl)
        as (before & after & d & Hsplit & Hd & Hn & Hafter).
      exists before, after, d. repeat split; try done.
      intros m' d' Hm' Hd' Heq. apply Hafter, elem_of_entries_names.
      by exists m', d'.
    + destruct (range_Methods_nil h ms ∅ Hms) as [partial Hp]. congruence.
  - intros (before & after & d & Hsplit & Hd & <- & Hafter).
    rewrite Hsplit in Hrun.
    by apply (range_Methods_later_wins h before m after d).
Qed.

Section ErrorFacts.

Context {Tmpl error : Type}.
Variable template_Parse : string → Tmpl + error.
Variable template_Execute : Tmpl → heap → ServiceDesc → string * option error.

Local Abbreviation Execute := (Execute template_Parse template_Execute).

(** C10: [Execute] assigns the rebuilt [MethodSets] before it parses
    the template. When the call returns an error, from the parse or
    from the substitution, the receiver holds the freshly built index,
    the map that has under each name the last entry of [Methods] of
    that name and nothing else, whatever map the receiver held before
    the call; the substitution, when it is reached, reads that
    receiver. *)
Theorem Execute_error_keeps_rebuilt_index body h s :
  no_nil h (Methods s) →
  ∃ idx,
    range_Methods h (Methods s) ∅ = Completed idx ∧
    (∀ n m,
       idx !! n = Some m ↔
       ∃ before after d,
         Methods s = before ++ m :: after ∧
         deref h m = Some d ∧ Name d = n ∧
         ∀ m' d', m' ∈ after → deref h m' = Some d' → Name d' ≠ n) ∧
    (∀ e, template_Parse body = inr e →
          Execute body h s = Returned (set_MethodSets (Some idx) s) "" (Some e)) ∧
    (∀ tmpl buf e,
       template_Parse body = inl tmpl →
       template_Execute tmpl h (set_MethodSets (Some idx) s) = (buf, Some e) →
       Execute body h s = Returned (set_MethodSets (Some idx) s) "" (Some e)) ∧
    (∀ s' text e,
       Execute body h s = Returned s' text (Some e) →
       MethodSets s' = Some idx) ∧
    (∀ old s' text e,
       Execute body h (set_MethodSets old s) = Returned s' text (Some e) →
       MethodSets s' = Some idx).
Proof.
  intros Hms.
  assert (∀ s' text e,
    Execute body h s = Returned s' text (Some e) →
    MethodSets s' = Some (foldl (λ a e, <[e.1 := e.2]> a) ∅
                            (entries h (Methods s)))) as Herr.
  { intros s' text e. unfold Template.Execute.
    rewrite range_Methods_no_nil by done.
    destruct (template_Parse body) as [tmpl|e'];
      [destruct (template_Execute tmpl h _) as [buf [e'|]]|];
      intros Heq; by injection Heq as <- _ _. }
  pose proof (range_Methods_no_nil h (Methods s) ∅ Hms) as Hrun.
  eexists. split; [exact Hrun|]. split; [|split; [|split; [|split]]].
  - intros n m. by apply range_Methods_lookup_iff.
  - intros e Hparse. unfold Template.Execute. by rewrite Hrun, Hparse.
  - intros tmpl buf e Hparse Hsub. unfold Template.Execute.
    by rewrite Hrun, Hparse, Hsub.
  - exact Herr.
  - intros old s' text e. rewrite Execute_ignores_MethodSets. apply Herr.
Qed.

End ErrorFacts.

(** [Execute_error_keeps_rebuilt_index] on a model with a stale index
    and a body that does not parse. *)
Lemma Execute_error_keeps_rebuilt_index_stale :
  ∃ idx,
    range_Methods objs (Methods Template.Sample.stale) ∅ = Completed idx ∧
    (∀ n m,
       idx !! n = Some m ↔
       ∃ before after d,
         Methods Template.Sample.stale = before ++ m :: after ∧
         deref objs m = Some d ∧ Name d = n ∧
         ∀ m' d', m' ∈ after → deref objs m' = Some d' → Name d' ≠ n) ∧
    (∀ e, Template.Sample.Parse "{{" = inr e →
          run "{{" objs Template.Sample.stale
          = Returned (set_MethodSets (Some idx) Template.Sample.stale) ""
                     (Some e)) ∧
    (∀ tmpl buf e,
       Template.Sample.Parse "{{" = inl tmpl →
       Template.Sample.Subst tmpl objs
         (set_MethodSets (Some idx) Template.Sample.stale) = (buf, Some e) →
       run "{{" objs Template.Sample.stale
       = Returned (set_MethodSets (Some idx) Template.Sample.stale) ""
                  (Some e)) ∧
    (∀ s' text e,
       run "{{" objs Template.Sample.stale = Returned s' text (Some e) →
       MethodSets s' = Some idx) ∧
    (∀ old s' text e,
       run "{{" objs (set_MethodSets old Template.Sample.stale)
       = Returned s' text (Some e) →
       MethodSets s' = Some idx).
Proof. apply Execute_error_keeps_rebuilt_index. by apply sample_no_nil. Defined.
